(** * Shallow embedding of [src/chord.rs] (quartic)

    The note / chord data model and its interval-resolution algorithm.
    Conventions:
    - [usize] values are [nat]; the subtractions the code performs on
      [usize] never underflow (see [NoteClass.difference]).
    - [PitchOffset = i8] values are [Z]; the i8 operators [+], [-] and the
      cast [usize as i8] are written out with their wrap-around modulo 2^8
      ([wrap_i8]), as in a build without overflow checks.
    - [Option::unwrap] and indexing a fixed array are partial; functions that
      use them return [option], [None] standing for the panic.
    - [ChordStructure] is the tuple struct over [[Option<PitchOffset>; 10]];
      its field [.0] is the list [slots], of length [PITCH_CLASS_COUNT] for
      every value the Rust type admits ([wf_structure]). *)

From Stdlib Require Import ZArith Lia Ascii.
From stdpp Require Import base list.

(** ** Fixed-width integers *)

(** Two's-complement reading of the low 8 bits of [z]. *)
Definition wrap_i8 (z : Z) : Z := ((z + 128) mod 256 - 128)%Z.

Definition i8_add (a b : Z) : Z := wrap_i8 (a + b).
Definition i8_sub (a b : Z) : Z := wrap_i8 (a - b).

(** [n as i8] for a [usize] [n]: truncation to the low byte. *)
Definition usize_as_i8 (n : nat) : Z := wrap_i8 (Z.of_nat n).

Definition in_i8 (z : Z) : Prop := (-128 <= z <= 127)%Z.

(** [i8::abs]: [abs(-128)] wraps to [-128]. *)
Definition i8_abs (z : Z) : Z := wrap_i8 (Z.abs z).

(** ** NoteClass *)

Inductive NoteClass := A | B | C | D | E | F | G.

(** [#[derive(PartialEq)]] *)
#[global] Instance NoteClass_eq_dec : EqDecision NoteClass.
Proof. solve_decision. Defined.

Definition NOTE_CLASS_COUNT : nat := 7.

Module NoteClass.

(** A [char] is an [ascii] here: every other character maps to [None]
    as well. *)
Definition from_char (input : ascii) : option NoteClass :=
  match input with
  | "A"%char => Some A
  | "B"%char => Some B
  | "C"%char => Some C
  | "D"%char => Some D
  | "E"%char => Some E
  | "F"%char => Some F
  | "G"%char => Some G
  | _ => None
  end.

Definition from_int (input : nat) : option NoteClass :=
  match input with
  | 0 => Some A
  | 1 => Some B
  | 2 => Some C
  | 3 => Some D
  | 4 => Some E
  | 5 => Some F
  | 6 => Some G
  | _ => None
  end.

Definition to_int (n : NoteClass) : nat :=
  match n with
  | A => 0 | B => 1 | C => 2 | D => 3 | E => 4 | F => 5 | G => 6
  end.

(** The constant array [OFFSETS] of [difference]. *)
Definition OFFSETS : list nat := [0; 2; 3; 5; 7; 8; 10].

(** [to_int] is always below [NOTE_CLASS_COUNT], so the array index is in
    range; [upper >= 12 > lower], so [upper - lower] does not underflow. *)
Definition difference (self other : NoteClass) : nat :=
  let upper := nth (to_int other) OFFSETS 0 + 12 in
  let lower := nth (to_int self) OFFSETS 0 in
  (upper - lower) mod 12.

(** [Display]: [write!(f, "{:?}", self)], the derived [Debug] name. *)
Definition fmt (n : NoteClass) : list ascii :=
  match n with
  | A => ["A"%char] | B => ["B"%char] | C => ["C"%char] | D => ["D"%char]
  | E => ["E"%char] | F => ["F"%char] | G => ["G"%char]
  end.

End NoteClass.

(** ** PitchClass *)

Inductive PitchClass := N1 | N2 | N3 | N4 | N5 | N6 | N7 | N9 | N11 | N13.

#[global] Instance PitchClass_eq_dec : EqDecision PitchClass.
Proof. solve_decision. Defined.

Definition PITCH_CLASS_COUNT : nat := 10.

Module PitchClass.

Definition from_int (input : nat) : option PitchClass :=
  match input with
  | 0 => Some N1
  | 1 => Some N2
  | 2 => Some N3
  | 3 => Some N4
  | 4 => Some N5
  | 5 => Some N6
  | 6 => Some N7
  | 7 => Some N9
  | 8 => Some N11
  | 9 => Some N13
  | _ => None
  end.

Definition index (p : PitchClass) : nat :=
  match p with
  | N1 => 0 | N2 => 1 | N3 => 2 | N4 => 3 | N5 => 4
  | N6 => 5 | N7 => 6 | N9 => 7 | N11 => 8 | N13 => 9
  end.

Definition to_int (p : PitchClass) : nat :=
  match p with
  | N1 => 0
  | N2 | N9 => 1
  | N3 => 2
  | N4 | N11 => 3
  | N5 => 4
  | N6 | N13 => 5
  | N7 => 6
  end.

Definition to_relative_difference (p : PitchClass) : nat :=
  match p with
  | N1 => 0 | N2 => 2 | N3 => 4 | N4 => 5 | N5 => 7
  | N6 => 9 | N7 => 11 | N9 => 14 | N11 => 17 | N13 => 21
  end.

(** The static array [CLASSES] of [extended_intervals]. *)
Definition CLASSES : list (PitchClass * Z) :=
  [(N7, 0%Z); (N9, 0%Z); (N11, 0%Z); (N13, 0%Z)].

Definition extended_intervals (p : PitchClass) : list (PitchClass * Z) :=
  match p with
  | N7 => take 1 CLASSES
  | N9 => take 2 CLASSES
  | N11 => take 3 CLASSES
  | N13 => take 4 CLASSES
  | _ => []
  end.

End PitchClass.

(** ** Note *)

Record Note := mkNote { root : NoteClass; offset : Z }.

(** [ChordComponent = (PitchClass, PitchOffset)]. *)
Definition ChordComponent : Type := PitchClass * Z.

Module Note.

Definition new (root : NoteClass) (offset : Z) : Note := mkNote root offset.

(** [Note::get_relative]; [None] is the panic of the [unwrap]. *)
Definition get_relative (self : Note) (component : ChordComponent)
    : option Note :=
  let (class, off) := component in
  let root_val :=
    (NoteClass.to_int (root self) + PitchClass.to_int class)
      mod NOTE_CLASS_COUNT in
  match NoteClass.from_int root_val with
  | None => None
  | Some root_note =>
      let rel_offset :=
        i8_sub (usize_as_i8 (PitchClass.to_relative_difference class))
               (usize_as_i8 (NoteClass.difference (root self) root_note)) in
      Some {| root := root_note;
              offset := i8_add (i8_add (offset self) off) rel_offset |}
  end.

(** [Display]: the letter, then [offset.abs()] copies of ['#'] when the
    offset is positive and of ['b'] otherwise; [for _ in 0..n] runs
    [max n 0] times. *)
Definition fmt (self : Note) : list ascii :=
  let accidental := if Z.ltb 0 (offset self) then "#"%char else "b"%char in
  NoteClass.fmt (root self) ++
  replicate (Z.to_nat (i8_abs (offset self))) accidental.

End Note.

(** ** ChordStructure *)

Record ChordStructure := mkChordStructure { slots : list (option Z) }.

(** Every value of the Rust array type has exactly [PITCH_CLASS_COUNT]
    slots. *)
Definition wf_structure (s : ChordStructure) : Prop :=
  length (slots s) = PITCH_CLASS_COUNT.

Module ChordStructure.

(** [[None; PITCH_CLASS_COUNT]] *)
Definition empty_classes : list (option Z) := replicate PITCH_CLASS_COUNT None.

Definition new : ChordStructure :=
  mkChordStructure (<[PitchClass.index N1 := Some 0%Z]> empty_classes).

Definition from_component (component : ChordComponent) : ChordStructure :=
  mkChordStructure
    (<[PitchClass.index component.1 := Some component.2]> empty_classes).

Definition insert (self : ChordStructure) (component : ChordComponent)
    : ChordStructure :=
  mkChordStructure
    (<[PitchClass.index component.1 := Some component.2]> (slots self)).

(** The [for] loop over the slice, in order. *)
Definition insert_many (self : ChordStructure)
    (components : list ChordComponent) : ChordStructure :=
  foldl (fun s component =>
           mkChordStructure
             (<[PitchClass.index component.1 := Some component.2]> (slots s)))
        self components.

(** [for i in 0..PITCH_CLASS_COUNT { if other.0[i].is_some() { .. } }] *)
Definition merge_step (other s : ChordStructure) (i : nat) : ChordStructure :=
  match slots other !! i with
  | Some (Some v) => mkChordStructure (<[i := Some v]> (slots s))
  | _ => s
  end.

Definition merge (self other : ChordStructure) : ChordStructure :=
  foldl (merge_step other) self (seq 0 PITCH_CLASS_COUNT).

(** [#[derive(Default)]]: every slot [None]. *)
Definition default : ChordStructure :=
  mkChordStructure (replicate PITCH_CLASS_COUNT None).

End ChordStructure.

(** ** Chord and its note iterator *)

(** The Rust fields are [slash_root], [root] and [structure]; [root] is
    already the projection of [Note]. *)
Record Chord := mkChord {
  slash_root : option Note;
  chord_root : Note;
  structure : ChordStructure
}.

Inductive NoteIteratorState := Slash | Structure (i : nat) | Exhausted.

Record NoteIterator := mkNoteIterator {
  chord : Chord;
  state : NoteIteratorState
}.

Module Chord.

Definition new (root : Note) (structure : ChordStructure) : Chord :=
  mkChord None root structure.

Definition new_slash (slash : Note) (root : Note) (structure : ChordStructure)
    : Chord :=
  mkChord (Some slash) root structure.

Definition iter (self : Chord) : NoteIterator := mkNoteIterator self Slash.

End Chord.

Module NoteIterator.

(** The [while i < PITCH_CLASS_COUNT] loop of the [Structure(ii)] arm;
    [k] bounds the remaining rounds and is [PITCH_CLASS_COUNT - i] at the
    call.  The result is the item and the new state, [None] a panic. *)
Fixpoint structure_loop (c : Chord) (k i : nat)
    : option (option Note * NoteIteratorState) :=
  match k with
  | O => Some (None, Exhausted)
  | S k' =>
      if decide (i < PITCH_CLASS_COUNT) then
        match slots (structure c) !! i with
        | None => None  (* array index out of bounds *)
        | Some None => structure_loop c k' (S i)
        | Some (Some off) =>
            match PitchClass.from_int i with
            | None => None
            | Some pc =>
                match Note.get_relative (chord_root c) (pc, off) with
                | None => None
                | Some n => Some (Some n, Structure (S i))
                end
            end
        end
      else Some (None, Exhausted)
  end.

Definition structure_arm (c : Chord) (ii : nat)
    : option (option Note * NoteIteratorState) :=
  structure_loop c (PITCH_CLASS_COUNT - ii) ii.

(** [Iterator::next]; the [continue 'retry] of the [Slash] arm re-enters
    the loop in state [Structure(0)]. *)
Definition next (it : NoteIterator) : option (option Note * NoteIterator) :=
  let c := chord it in
  let res :=
    match state it with
    | Slash =>
        match slash_root c with
        | Some note => Some (Some note, Structure 0)
        | None => structure_arm c 0
        end
    | Structure ii => structure_arm c ii
    | Exhausted => Some (None, Exhausted)
    end in
  match res with
  | None => None
  | Some (o, s) => Some (o, mkNoteIterator c s)
  end.

(** [collect::<Vec<_>>()] with at most [fuel] calls of [next]; [None] is a
    panic or an iterator not exhausted within [fuel] calls. *)
Fixpoint collect (fuel : nat) (it : NoteIterator) : option (list Note) :=
  match fuel with
  | O => None
  | S fuel' =>
      match next it with
      | None => None
      | Some (None, _) => Some []
      | Some (Some n, it') =>
          match collect fuel' it' with
          | None => None
          | Some l => Some (n :: l)
          end
      end
  end.

End NoteIterator.

(** ** PolyChord *)

Record PolyChord := mkPolyChord { upper : Chord; lower : Chord }.

(** [std::iter::Chain]: the first iterator is dropped ([None]) once it
    returns [None]; the second one is then polled. *)
Record Chain := mkChain {
  chain_a : option NoteIterator;
  chain_b : option NoteIterator
}.

Module PolyChord.

Definition new (upper lower : Chord) : PolyChord := mkPolyChord upper lower.

Definition iter (self : PolyChord) : Chain :=
  mkChain (Some (Chord.iter (lower self))) (Some (Chord.iter (upper self))).

End PolyChord.

Module Chain.

Definition next_b (b : option NoteIterator)
    : option (option Note * option NoteIterator) :=
  match b with
  | None => Some (None, None)
  | Some it =>
      match NoteIterator.next it with
      | None => None
      | Some (o, it') => Some (o, Some it')
      end
  end.

Definition next (ch : Chain) : option (option Note * Chain) :=
  match chain_a ch with
  | Some a =>
      match NoteIterator.next a with
      | None => None
      | Some (Some n, a') => Some (Some n, mkChain (Some a') (chain_b ch))
      | Some (None, _) =>
          match next_b (chain_b ch) with
          | None => None
          | Some (o, b') => Some (o, mkChain None b')
          end
      end
  | None =>
      match next_b (chain_b ch) with
      | None => None
      | Some (o, b') => Some (o, mkChain None b')
      end
  end.

Fixpoint collect (fuel : nat) (ch : Chain) : option (list Note) :=
  match fuel with
  | O => None
  | S fuel' =>
      match next ch with
      | None => None
      | Some (None, _) => Some []
      | Some (Some n, ch') =>
          match collect fuel' ch' with
          | None => None
          | Some l => Some (n :: l)
          end
      end
  end.

End Chain.

Definition ex_slash : Chord :=
  Chord.new_slash (Note.new C 1) (Note.new A 0)
    (ChordStructure.insert_many ChordStructure.new [(N3, 0%Z); (N5, 0%Z)]).

Definition ex_poly : PolyChord :=
  PolyChord.new
    (Chord.new (Note.new F 1)
       (ChordStructure.insert_many ChordStructure.new [(N3, 0%Z); (N5, 1%Z)]))
    (Chord.new (Note.new B 0)
       (ChordStructure.insert_many ChordStructure.new [(N3, (-1)%Z); (N5, 0%Z)])).

Example ex_slash_notes :
  NoteIterator.collect 12 (Chord.iter ex_slash) =
  Some [Note.new C 1; Note.new A 0; Note.new C 1; Note.new E 0].
Proof. reflexivity. Qed.

Example ex_poly_notes :
  Chain.collect 24 (PolyChord.iter ex_poly) =
  Some [Note.new B 0; Note.new D 0; Note.new F 1;
        Note.new F 1; Note.new A 1; Note.new C 2].
Proof. reflexivity. Qed.

(** ** Statements of the spec *)

(** The ordinal of the letter [get_relative] lands on. *)
Definition target_index (r : Note) (d : PitchClass) : nat :=
  (NoteClass.to_int (root r) + PitchClass.to_int d) mod NOTE_CLASS_COUNT.

(** [root.offset + explicit_offset + (ideal - diatonic_gap)] over [Z],
    for the target letter [t]. *)
Definition relative_offset (r : Note) (d : PitchClass) (e : Z)
    (t : NoteClass) : Z :=
  (offset r + e +
   (Z.of_nat (PitchClass.to_relative_difference d) -
    Z.of_nat (NoteClass.difference (root r) t)))%Z.

(** The spec's semitone table [A:0, B:2, C:3, D:5, E:7, F:8, G:10]. *)
Definition offset_table (x : NoteClass) : nat :=
  match x with
  | A => 0 | B => 2 | C => 3 | D => 5 | E => 7 | F => 8 | G => 10
  end.

(** Octave-free pitch of a note: letter value plus accidentals. *)
Definition pitch (n : Note) : Z := (Z.of_nat (offset_table (root n)) + offset n)%Z.

(** ** Arithmetic lemmas *)

Lemma wrap_i8_id (z : Z) : in_i8 z -> wrap_i8 z = z.
Proof.
  unfold in_i8, wrap_i8; intros H.
  rewrite Z.mod_small by lia. lia.
Qed.

Lemma wrap_i8_add_l (a b : Z) : wrap_i8 (wrap_i8 a + b) = wrap_i8 (a + b).
Proof.
  unfold wrap_i8. f_equal.
  replace ((a + 128) mod 256 - 128 + b + 128)%Z
    with ((a + 128) mod 256 + b)%Z by lia.
  rewrite Z.add_mod_idemp_l by lia. f_equal; lia.
Qed.

(** The accidental arithmetic of [get_relative]: one wrap of the exact sum,
    since [ideal <= 21] and [gap < 12] are represented exactly. *)
Lemma offset_arith (o e : Z) (n m : nat) :
  n <= 21 -> m < 12 ->
  i8_add (i8_add o e) (i8_sub (usize_as_i8 n) (usize_as_i8 m)) =
  wrap_i8 (o + e + (Z.of_nat n - Z.of_nat m)).
Proof.
  intros Hn Hm. unfold i8_add, i8_sub, usize_as_i8.
  rewrite (wrap_i8_id (Z.of_nat n)) by (unfold in_i8; lia).
  rewrite (wrap_i8_id (Z.of_nat m)) by (unfold in_i8; lia).
  rewrite (wrap_i8_id (Z.of_nat n - Z.of_nat m)) by (unfold in_i8; lia).
  rewrite wrap_i8_add_l. reflexivity.
Qed.

Lemma note_class_of_lt (n : nat) :
  n < NOTE_CLASS_COUNT ->
  exists t, NoteClass.from_int n = Some t /\ NoteClass.to_int t = n.
Proof.
  unfold NOTE_CLASS_COUNT; intros H.
  do 7 (destruct n as [|n]; [eexists; split; reflexivity|]). lia.
Qed.

Lemma pitch_class_of_lt (i : nat) :
  i < PITCH_CLASS_COUNT -> exists pc, PitchClass.from_int i = Some pc.
Proof.
  unfold PITCH_CLASS_COUNT; intros H.
  do 10 (destruct i as [|i]; [eexists; reflexivity|]). lia.
Qed.

Lemma difference_lt (x y : NoteClass) : NoteClass.difference x y < 12.
Proof. destruct x, y; vm_compute; lia. Qed.

Lemma to_relative_difference_le (p : PitchClass) :
  PitchClass.to_relative_difference p <= 21.
Proof. destruct p; simpl; lia. Qed.

Lemma difference_offset_table (x y : NoteClass) :
  Z.of_nat (NoteClass.difference x y) =
  ((Z.of_nat (offset_table y) - Z.of_nat (offset_table x)) mod 12)%Z.
Proof. destruct x, y; reflexivity. Qed.

Lemma target_index_lt (r : Note) (d : PitchClass) :
  target_index r d < NOTE_CLASS_COUNT.
Proof. unfold target_index, NOTE_CLASS_COUNT. apply Nat.mod_upper_bound. lia. Qed.

(** [get_relative] in closed form: it never panics, lands on the letter of
    ordinal [target_index], and its offset is the exact sum wrapped to i8. *)
Lemma get_relative_eq (r : Note) (d : PitchClass) (e : Z) :
  exists t, NoteClass.to_int t = target_index r d /\
    Note.get_relative r (d, e) =
    Some (mkNote t (wrap_i8 (relative_offset r d e t))).
Proof.
  destruct (note_class_of_lt (target_index r d) (target_index_lt r d))
    as (t & Ht & Hti).
  exists t. split; [exact Hti|].
  unfold Note.get_relative. cbn zeta.
  change ((NoteClass.to_int (root r) + PitchClass.to_int d)
            mod NOTE_CLASS_COUNT) with (target_index r d).
  rewrite Ht. unfold relative_offset.
  rewrite offset_arith by (apply to_relative_difference_le || apply difference_lt).
  reflexivity.
Qed.

Lemma get_relative_some (r : Note) (c : ChordComponent) :
  Note.get_relative r c <> None.
Proof.
  destruct c as [d e]. destruct (get_relative_eq r d e) as (t & _ & ->).
  discriminate.
Qed.

(** ** Note::get_relative *)

Example offset_calculation :
  Note.get_relative (Note.new A 0) (N5, 0%Z) = Some (Note.new E 0) /\
  Note.get_relative (Note.new A 0) (N5, (-1)%Z) = Some (Note.new E (-1)) /\
  Note.get_relative (Note.new F (-1)) (N2, (-2)%Z) = Some (Note.new G (-3)) /\
  Note.get_relative (Note.new D 0) (N3, 0%Z) = Some (Note.new F 1) /\
  Note.get_relative (Note.new A 0) (N3, 0%Z) = Some (Note.new C 1).
Proof. repeat split. Qed.

(** C1 (amended): for every root [r] and component [(d, e)], when the exact
    offset [r.offset + e + (ideal - diatonic_gap)] fits in i8,
    [get_relative] returns the note on the letter of ordinal
    [(r.root ordinal + letter-offset of d) mod 7] with that offset. *)
Theorem get_relative_in_range (r : Note) (d : PitchClass) (e : Z)
    (t : NoteClass) :
  NoteClass.to_int t = target_index r d ->
  in_i8 (relative_offset r d e t) ->
  Note.get_relative r (d, e) = Some (mkNote t (relative_offset r d e t)).
Proof.
  intros Ht Hin.
  destruct (get_relative_eq r d e) as (t' & Ht' & ->).
  assert (t' = t) as ->.
  { rewrite <- Ht in Ht'. destruct t, t'; simpl in Ht'; congruence. }
  rewrite wrap_i8_id by exact Hin. reflexivity.
Qed.

Lemma get_relative_in_range_witness :
  (NoteClass.to_int F = target_index (Note.new D 0) N3 /\
   in_i8 (relative_offset (Note.new D 0) N3 0 F)) /\
  Note.get_relative (Note.new D 0) (N3, 0%Z) = Some (Note.new F 1).
Proof.
  split; [split; [reflexivity | unfold in_i8; vm_compute; split; discriminate]|].
  apply (get_relative_in_range (Note.new D 0) N3 0 F);
    [reflexivity | unfold in_i8; vm_compute; split; discriminate].
Defined.

(** C1 counterexample: from [A] with 127 sharps, the major third is [C] with
    exactly 128 sharps, which i8 cannot hold; the code returns [C] with
    offset -128. *)
Lemma get_relative_overflow_counterexample :
  relative_offset (Note.new A 127) N3 0 C = 128%Z /\
  Note.get_relative (Note.new A 127) (N3, 0%Z) = Some (Note.new C (-128)) /\
  Note.get_relative (Note.new A 127) (N3, 0%Z) <> Some (mkNote C 128).
Proof. split; [reflexivity | split; [reflexivity | discriminate]]. Qed.

(** C3 (amended): when the exact offset fits in i8, the note returned by
    [get_relative r (d, e)] lies [ideal(d) + e] semitones above [r],
    modulo 12, with pitch = table value of the letter + accidentals. *)
Theorem get_relative_pitch_distance (r : Note) (d : PitchClass) (e : Z)
    (n : Note) :
  Note.get_relative r (d, e) = Some n ->
  in_i8 (relative_offset r d e (root n)) ->
  ((pitch n - pitch r) mod 12 =
   (Z.of_nat (PitchClass.to_relative_difference d) + e) mod 12)%Z.
Proof.
  intros Hn Hin.
  destruct (get_relative_eq r d e) as (t & _ & Heq).
  rewrite Heq in Hn. injection Hn as <-. simpl in Hin.
  rewrite wrap_i8_id by exact Hin.
  unfold pitch, relative_offset; simpl.
  rewrite difference_offset_table.
  set (k := (Z.of_nat (offset_table t) - Z.of_nat (offset_table (root r)))%Z).
  set (ideal := Z.of_nat (PitchClass.to_relative_difference d)).
  pose proof (Z.div_mod k 12 ltac:(lia)) as Hk.
  replace (Z.of_nat (offset_table t) +
           (offset r + e + (ideal - k mod 12)) -
           (Z.of_nat (offset_table (root r)) + offset r))%Z
    with ((ideal + e) + (k / 12) * 12)%Z by (unfold k in *; lia).
  apply Z_mod_plus_full.
Qed.

Lemma get_relative_pitch_distance_witness :
  (Note.get_relative (Note.new A 0) (N3, 0%Z) = Some (Note.new C 1) /\
   in_i8 (relative_offset (Note.new A 0) N3 0 C)) /\
  ((pitch (Note.new C 1) - pitch (Note.new A 0)) mod 12 =
   (Z.of_nat (PitchClass.to_relative_difference N3) + 0) mod 12)%Z.
Proof.
  split; [split; [reflexivity | unfold in_i8; vm_compute; split; discriminate]|].
  apply (get_relative_pitch_distance (Note.new A 0) N3 0 (Note.new C 1));
    [reflexivity | unfold in_i8; vm_compute; split; discriminate].
Defined.

(** C3 counterexample: for [A] with 127 sharps and an unaltered third the
    returned note is 0 semitones above the root modulo 12, not 4. *)
Lemma get_relative_pitch_overflow_counterexample :
  Note.get_relative (Note.new A 127) (N3, 0%Z) = Some (Note.new C (-128)) /\
  ((pitch (Note.new C (-128)) - pitch (Note.new A 127)) mod 12 = 0)%Z /\
  ((Z.of_nat (PitchClass.to_relative_difference N3) + 0) mod 12 = 4)%Z.
Proof. repeat split. Qed.

(** C10: [get_relative] is total (no panic) and its offset is the exact
    value [r.offset + e + (ideal - gap)] wrapped modulo 2^8 into i8; in
    particular it equals the exact value whenever that fits in i8. *)
Theorem get_relative_wrapping (r : Note) (d : PitchClass) (e : Z) :
  exists n, Note.get_relative r (d, e) = Some n /\
    NoteClass.to_int (root n) = target_index r d /\
    offset n = wrap_i8 (relative_offset r d e (root n)) /\
    (in_i8 (relative_offset r d e (root n)) ->
     offset n = relative_offset r d e (root n)).
Proof.
  destruct (get_relative_eq r d e) as (t & Ht & Heq).
  eexists; split; [exact Heq|]. simpl.
  split; [exact Ht|]. split; [reflexivity|].
  apply wrap_i8_id.
Qed.

(** ** NoteClass::difference *)

(** C7: [difference x y] lies in [0, 12), [difference x x = 0], it equals
    [(offset_table y + 12 - offset_table x) mod 12], and
    [difference A B = 2]. *)
Theorem difference_spec (x y : NoteClass) :
  NoteClass.difference x y < 12 /\
  NoteClass.difference x x = 0 /\
  NoteClass.difference x y = (offset_table y + 12 - offset_table x) mod 12 /\
  NoteClass.difference A B = 2.
Proof.
  split; [apply difference_lt|].
  split; [destruct x; reflexivity|].
  split; [destruct x, y; reflexivity | reflexivity].
Qed.

(** ** Panics *)

Lemma structure_loop_ok (c : Chord) (k i : nat) :
  wf_structure (structure c) -> NoteIterator.structure_loop c k i <> None.
Proof.
  intros Hwf. revert i; induction k as [|k IH]; intros i;
    cbn [NoteIterator.structure_loop]; [discriminate|].
  destruct (decide (i < PITCH_CLASS_COUNT)) as [Hi|]; [|discriminate].
  destruct (lookup_lt_is_Some_2 (slots (structure c)) i) as [x Hx];
    [unfold wf_structure in Hwf; lia|].
  rewrite Hx. destruct x as [off|]; [|apply IH].
  destruct (pitch_class_of_lt i Hi) as [pc ->].
  destruct (Note.get_relative (chord_root c) (pc, off)) eqn:Hg;
    [discriminate|].
  exfalso; exact (get_relative_some _ _ Hg).
Qed.

(** C9: the [unwrap] in [get_relative] always receives an ordinal below 7
    and finds a letter; [PitchClass::from_int] returns a degree for every
    index below 10, which the [while] guard ensures; so [next] never panics
    on any chord (of the Rust array type) in any state. *)
Theorem unwrap_sites_safe :
  (forall (r : Note) (d : PitchClass),
     target_index r d < NOTE_CLASS_COUNT /\
     NoteClass.from_int (target_index r d) <> None) /\
  (forall i, i < PITCH_CLASS_COUNT -> PitchClass.from_int i <> None) /\
  (forall (c : Chord) (s : NoteIteratorState),
     wf_structure (structure c) ->
     NoteIterator.next (mkNoteIterator c s) <> None).
Proof.
  split; [|split].
  - intros r d. split; [apply target_index_lt|].
    destruct (note_class_of_lt _ (target_index_lt r d)) as (t & -> & _).
    discriminate.
  - intros i Hi. destruct (pitch_class_of_lt i Hi) as [pc ->]. discriminate.
  - intros c s Hwf. unfold NoteIterator.next; cbn [chord state].
    destruct s as [| ii |].
    + destruct (slash_root c); [cbn; discriminate|].
      unfold NoteIterator.structure_arm.
      destruct (NoteIterator.structure_loop c (PITCH_CLASS_COUNT - 0) 0)
        as [[o s]|] eqn:Hl; [discriminate|].
      exfalso; exact (structure_loop_ok c _ 0 Hwf Hl).
    + unfold NoteIterator.structure_arm.
      destruct (NoteIterator.structure_loop c (PITCH_CLASS_COUNT - ii) ii)
        as [[o s]|] eqn:Hl; [discriminate|].
      exfalso; exact (structure_loop_ok c _ ii Hwf Hl).
    + discriminate.
Qed.

Lemma unwrap_sites_safe_witness :
  (5 < PITCH_CLASS_COUNT /\ wf_structure (structure ex_slash)) /\
  (PitchClass.from_int 5 <> None /\
   NoteIterator.next (mkNoteIterator ex_slash (Structure 3)) <> None).
Proof.
  split; [split; [unfold PITCH_CLASS_COUNT; lia | reflexivity]|].
  split.
  - apply (proj1 (proj2 unwrap_sites_safe) 5). vm_compute. lia.
  - apply (proj2 (proj2 unwrap_sites_safe) ex_slash (Structure 3)).
    reflexivity.
Defined.

(** ** ChordStructure: slots and the builder operations *)

Lemma insert_keeps_present (l : list (option Z)) (j : nat) (x : Z)
    (i : nat) (v : Z) :
  l !! i = Some (Some v) -> exists v', <[j := Some x]> l !! i = Some (Some v').
Proof.
  intros Hi. destruct (decide (j = i)) as [->|Hne].
  - exists x. apply list_lookup_insert_eq. eapply lookup_lt_Some; eauto.
  - exists v. rewrite list_lookup_insert_ne by done. exact Hi.
Qed.

Lemma insert_many_keeps_present (s : ChordStructure)
    (l : list ChordComponent) (i : nat) (v : Z) :
  slots s !! i = Some (Some v) ->
  exists v', slots (ChordStructure.insert_many s l) !! i = Some (Some v').
Proof.
  unfold ChordStructure.insert_many.
  revert s v; induction l as [|[d o] l IH]; intros s v Hi; simpl.
  - exists v. exact Hi.
  - destruct (insert_keeps_present (slots s) (PitchClass.index d) o i v Hi)
      as [v' Hv'].
    exact (IH (mkChordStructure _) v' Hv').
Qed.

Lemma merge_fold_keeps_present (other s : ChordStructure) (l : list nat)
    (i : nat) (v : Z) :
  slots s !! i = Some (Some v) ->
  exists v',
    slots (foldl (ChordStructure.merge_step other) s l) !! i = Some (Some v').
Proof.
  revert s v; induction l as [|j l IH]; intros s v Hi; simpl.
  - exists v. exact Hi.
  - unfold ChordStructure.merge_step at 2.
    destruct (slots other !! j) as [[x|]|]; try exact (IH s v Hi).
    destruct (insert_keeps_present (slots s) j x i v Hi) as [v' Hv'].
    exact (IH (mkChordStructure _) v' Hv').
Qed.

Lemma length_merge_step (other s : ChordStructure) (j : nat) :
  length (slots (ChordStructure.merge_step other s j)) = length (slots s).
Proof.
  unfold ChordStructure.merge_step.
  destruct (slots other !! j) as [[x|]|]; simpl; auto using length_insert.
Qed.

Lemma lookup_merge_step (other s : ChordStructure) (j i : nat) :
  i < length (slots s) ->
  slots (ChordStructure.merge_step other s j) !! i =
  if decide (i = j) then
    match slots other !! i with
    | Some (Some v) => Some (Some v)
    | _ => slots s !! i
    end
  else slots s !! i.
Proof.
  intros Hlt. unfold ChordStructure.merge_step.
  destruct (decide (i = j)) as [->|Hne].
  - destruct (slots other !! j) as [[x|]|]; simpl; try reflexivity.
    apply list_lookup_insert_eq. exact Hlt.
  - destruct (slots other !! j) as [[x|]|]; simpl; try reflexivity.
    apply list_lookup_insert_ne. congruence.
Qed.

Lemma lookup_merge_fold (other s : ChordStructure) (l : list nat) (i : nat) :
  i < length (slots s) ->
  slots (foldl (ChordStructure.merge_step other) s l) !! i =
  if decide (i ∈ l) then
    match slots other !! i with
    | Some (Some v) => Some (Some v)
    | _ => slots s !! i
    end
  else slots s !! i.
Proof.
  revert s; induction l as [|j l IH]; intros s Hlt; simpl.
  - destruct (decide (i ∈ [])) as [Hin|]; [inversion Hin | reflexivity].
  - rewrite IH by (rewrite length_merge_step; exact Hlt).
    rewrite lookup_merge_step by exact Hlt.
    destruct (decide (i ∈ l)) as [Hl|Hl];
      destruct (decide (i ∈ j :: l)) as [Hjl|Hjl];
      destruct (decide (i = j)) as [Hij|Hij];
      destruct (slots other !! i) as [[x|]|];
      try reflexivity; rewrite elem_of_cons in Hjl; tauto.
Qed.

Definition all_absent : ChordStructure :=
  mkChordStructure (replicate PITCH_CLASS_COUNT None).

(** C5 (amended): [new()] has the unison slot present with offset 0 and the
    nine other slots absent; [from_component((d, o))] has slot [d] present
    with offset [o] and every other slot absent (so its unison slot is
    absent unless [d] is [N1]); and [insert], [insert_many] and [merge]
    keep every present slot present. *)
Theorem structure_slots_preserved :
  slots ChordStructure.new = Some 0%Z :: replicate 9 None /\
  (forall (d : PitchClass) (o : Z) (i : nat), i < PITCH_CLASS_COUNT ->
     slots (ChordStructure.from_component (d, o)) !! i =
     Some (if decide (i = PitchClass.index d) then Some o else None)) /\
  (forall (s : ChordStructure) (c : ChordComponent) (i : nat) (v : Z),
     slots s !! i = Some (Some v) ->
     exists v', slots (ChordStructure.insert s c) !! i = Some (Some v')) /\
  (forall (s : ChordStructure) (l : list ChordComponent) (i : nat) (v : Z),
     slots s !! i = Some (Some v) ->
     exists v', slots (ChordStructure.insert_many s l) !! i = Some (Some v')) /\
  (forall (s other : ChordStructure) (i : nat) (v : Z),
     slots s !! i = Some (Some v) ->
     exists v', slots (ChordStructure.merge s other) !! i = Some (Some v')).
Proof.
  split; [reflexivity|]. split; [|split; [|split]].
  - intros d o i Hi. unfold ChordStructure.from_component; simpl.
    rewrite list_lookup_insert.
    destruct (decide (PitchClass.index d = i /\
                      PitchClass.index d < length ChordStructure.empty_classes))
      as [[Hdi _]|Hn].
    + subst i. rewrite decide_True by reflexivity. reflexivity.
    + unfold ChordStructure.empty_classes.
      rewrite lookup_replicate_2 by exact Hi.
      rewrite decide_False; [reflexivity|].
      intros ->. apply Hn. split; [reflexivity|].
      unfold ChordStructure.empty_classes.
      rewrite length_replicate. exact Hi.
  - intros s [d o] i v Hi. exact (insert_keeps_present _ _ o i v Hi).
  - apply insert_many_keeps_present.
  - intros s other i v Hi. exact (merge_fold_keeps_present other s _ i v Hi).
Qed.

Lemma structure_slots_preserved_witness :
  (2 < PITCH_CLASS_COUNT /\
   slots (ChordStructure.from_component (N3, 0%Z)) !! 2 = Some (Some 0%Z)) /\
  (slots ChordStructure.new !! 0 = Some (Some 0%Z) /\
   exists v', slots (ChordStructure.merge ChordStructure.new
                       (ChordStructure.from_component (N1, 1%Z))) !! 0 =
              Some (Some v')).
Proof.
  split; [split; [unfold PITCH_CLASS_COUNT; lia|]|split; [reflexivity|]].
  - apply (proj1 (proj2 structure_slots_preserved) N3 0%Z 2).
    unfold PITCH_CLASS_COUNT; lia.
  - apply (proj2 (proj2 (proj2 (proj2 structure_slots_preserved)))
             ChordStructure.new (ChordStructure.from_component (N1, 1%Z)) 0 0%Z).
    reflexivity.
Defined.

(** C5 counterexample: a structure built by [from_component((N3, 0))] has
    its unison slot absent. *)
Lemma from_component_no_unison_counterexample :
  slots (ChordStructure.from_component (N3, 0%Z)) !! PitchClass.index N1 =
  Some None.
Proof. reflexivity. Qed.

Lemma index_inj (p q : PitchClass) :
  PitchClass.index p = PitchClass.index q -> p = q.
Proof. destruct p, q; simpl; congruence. Qed.

Lemma length_insert_many (s : ChordStructure) (l : list ChordComponent) :
  length (slots (ChordStructure.insert_many s l)) = length (slots s).
Proof.
  unfold ChordStructure.insert_many. revert s.
  induction l as [|c l IH]; intros s; simpl; [reflexivity|].
  rewrite IH. simpl. apply length_insert.
Qed.

Lemma insert_many_lookup_other (s : ChordStructure) (l : list ChordComponent)
    (d : PitchClass) :
  Forall (fun c => c.1 <> d) l ->
  slots (ChordStructure.insert_many s l) !! PitchClass.index d =
  slots s !! PitchClass.index d.
Proof.
  unfold ChordStructure.insert_many. revert s.
  induction l as [|c l IH]; intros s Hl; simpl; [reflexivity|].
  inversion Hl as [|? ? Hc Hrest]; subst.
  rewrite (IH _ Hrest). simpl.
  apply list_lookup_insert_ne. intros Heq. apply Hc, index_inj, Heq.
Qed.

(** C6: [merge] is right-biased slot by slot; merging with the all-absent
    structure changes nothing; inserting one degree twice keeps the second
    offset; within one [insert_many] the last entry for a degree wins. *)
Theorem merge_right_biased :
  (forall (a b : ChordStructure) (i : nat),
     wf_structure a -> i < PITCH_CLASS_COUNT ->
     slots (ChordStructure.merge a b) !! i =
     match slots b !! i with
     | Some (Some v) => Some (Some v)
     | _ => slots a !! i
     end) /\
  (forall a : ChordStructure, ChordStructure.merge a all_absent = a) /\
  (forall (s : ChordStructure) (d : PitchClass) (o1 o2 : Z),
     ChordStructure.insert (ChordStructure.insert s (d, o1)) (d, o2) =
     ChordStructure.insert s (d, o2)) /\
  (forall (s : ChordStructure) (l1 l2 : list ChordComponent)
          (d : PitchClass) (o : Z),
     wf_structure s -> Forall (fun c => c.1 <> d) l2 ->
     slots (ChordStructure.insert_many s (l1 ++ (d, o) :: l2))
       !! PitchClass.index d = Some (Some o)).
Proof.
  split; [|split; [|split]].
  - intros a b i Hwf Hi. unfold ChordStructure.merge.
    rewrite lookup_merge_fold
      by (unfold wf_structure in Hwf; rewrite Hwf; exact Hi).
    rewrite decide_True; [reflexivity|].
    apply elem_of_seq. lia.
  - intros [l]. reflexivity.
  - intros [l] d o1 o2. unfold ChordStructure.insert; simpl.
    rewrite list_insert_insert_eq. reflexivity.
  - intros s l1 l2 d o Hwf Hl2.
    replace (ChordStructure.insert_many s (l1 ++ (d, o) :: l2)) with
      (ChordStructure.insert_many
         (ChordStructure.insert_many (ChordStructure.insert_many s l1)
            [(d, o)]) l2)
      by (unfold ChordStructure.insert_many;
          rewrite (foldl_app _ l1 ((d, o) :: l2)); reflexivity).
    + rewrite insert_many_lookup_other by exact Hl2. simpl.
      apply list_lookup_insert_eq.
      rewrite length_insert_many. unfold wf_structure in Hwf. rewrite Hwf.
      destruct d; unfold PITCH_CLASS_COUNT; simpl; lia.
Qed.

Lemma merge_right_biased_witness :
  (wf_structure ChordStructure.new /\ 2 < PITCH_CLASS_COUNT) /\
  slots (ChordStructure.merge ChordStructure.new
           (ChordStructure.from_component (N3, (-1)%Z))) !! 2 =
    Some (Some (-1)%Z) /\
  Forall (fun c : ChordComponent => c.1 <> N3) [(N5, 0%Z)] /\
  slots (ChordStructure.insert_many ChordStructure.new
           ([(N3, 0%Z)] ++ (N3, 1%Z) :: [(N5, 0%Z)]))
    !! PitchClass.index N3 = Some (Some 1%Z).
Proof.
  split; [split; [reflexivity | unfold PITCH_CLASS_COUNT; lia]|].
  split.
  - rewrite (proj1 merge_right_biased ChordStructure.new
               (ChordStructure.from_component (N3, (-1)%Z)) 2);
      [reflexivity | reflexivity | unfold PITCH_CLASS_COUNT; lia].
  - split; [repeat constructor; discriminate|].
    apply (proj2 (proj2 (proj2 merge_right_biased))); [reflexivity|].
    repeat constructor; discriminate.
Defined.

(** ** Chord::iter and PolyChord::iter *)

(** The notes the spec lists for a chord, as results of [get_relative]
    ([None] would be a panic). *)
Definition slash_notes (c : Chord) : list (option Note) :=
  match slash_root c with Some n => [Some n] | None => [] end.

Definition slot_resolve (c : Chord) (i : nat) : option Note :=
  match slots (structure c) !! i with
  | Some (Some o) =>
      match PitchClass.from_int i with
      | Some pc => Note.get_relative (chord_root c) (pc, o)
      | None => None
      end
  | _ => None
  end.

Definition slot_present (c : Chord) (i : nat) : bool :=
  match slots (structure c) !! i with Some (Some _) => true | _ => false end.

Definition slot_note (c : Chord) (i : nat) : list (option Note) :=
  if slot_present c i then [slot_resolve c i] else [].

Definition chord_notes_spec (c : Chord) : list (option Note) :=
  slash_notes c ++ flat_map (slot_note c) (seq 0 PITCH_CLASS_COUNT).

Lemma collect_next_eq (fuel : nat) (it1 it2 : NoteIterator) :
  NoteIterator.next it1 = NoteIterator.next it2 ->
  NoteIterator.collect fuel it1 = NoteIterator.collect fuel it2.
Proof. intros H. destruct fuel; simpl; [reflexivity|]. rewrite H. reflexivity. Qed.

Lemma collect_structure (c : Chord) (k i fuel : nat) :
  wf_structure (structure c) -> i + k = PITCH_CLASS_COUNT -> k < fuel ->
  exists l, NoteIterator.collect fuel (mkNoteIterator c (Structure i)) = Some l /\
    map Some l = flat_map (slot_note c) (seq i k).
Proof.
  intros Hwf. revert i fuel; induction k as [|k IH]; intros i fuel Hik Hf.
  - destruct fuel as [|fuel]; [lia|].
    exists []. split; [|reflexivity].
    cbn [NoteIterator.collect]. unfold NoteIterator.next; cbn [chord state].
    unfold NoteIterator.structure_arm.
    replace (PITCH_CLASS_COUNT - i) with 0 by lia. reflexivity.
  - assert (Hi : i < PITCH_CLASS_COUNT) by lia.
    destruct (lookup_lt_is_Some_2 (slots (structure c)) i) as [x Hx];
      [unfold wf_structure in Hwf; lia|].
    destruct x as [off|].
    + destruct (pitch_class_of_lt i Hi) as [pc Hpc].
      destruct (Note.get_relative (chord_root c) (pc, off)) as [n|] eqn:Hg;
        [|exfalso; exact (get_relative_some _ _ Hg)].
      destruct fuel as [|fuel]; [lia|].
      destruct (IH (S i) fuel) as (l & Hl & Hml); [lia | lia |].
      exists (n :: l). split.
      * cbn [NoteIterator.collect]. unfold NoteIterator.next; cbn [chord state].
        unfold NoteIterator.structure_arm.
        replace (PITCH_CLASS_COUNT - i) with (S k) by lia.
        cbn [NoteIterator.structure_loop].
        rewrite decide_True by exact Hi. rewrite Hx, Hpc, Hg.
        rewrite Hl. reflexivity.
      * simpl. unfold slot_note, slot_present, slot_resolve at 1.
        rewrite Hx, Hpc, Hg. simpl. rewrite Hml. reflexivity.
    + destruct (IH (S i) fuel) as (l & Hl & Hml); [lia | lia |].
      exists l. split.
      * rewrite <- Hl. apply collect_next_eq.
        unfold NoteIterator.next; cbn [chord state].
        unfold NoteIterator.structure_arm.
        replace (PITCH_CLASS_COUNT - i) with (S k) by lia.
        replace (PITCH_CLASS_COUNT - S i) with k by lia.
        cbn [NoteIterator.structure_loop].
        rewrite decide_True by exact Hi. rewrite Hx. reflexivity.
      * simpl. unfold slot_note, slot_present. rewrite Hx. simpl. exact Hml.
Qed.

(** Collecting [Chord::iter]: the spec's list, for any fuel of at least
    [2 + PITCH_CLASS_COUNT] calls of [next]. *)
Lemma chord_collect (c : Chord) (fuel : nat) :
  wf_structure (structure c) -> 12 <= fuel ->
  exists l, NoteIterator.collect fuel (Chord.iter c) = Some l /\
    map Some l = chord_notes_spec c.
Proof.
  intros Hwf Hf. unfold chord_notes_spec, slash_notes, Chord.iter.
  destruct (slash_root c) as [n|] eqn:Hs.
  - destruct fuel as [|fuel]; [lia|].
    destruct (collect_structure c PITCH_CLASS_COUNT 0 fuel) as (l & Hl & Hml);
      [exact Hwf | reflexivity | unfold PITCH_CLASS_COUNT; lia |].
    exists (n :: l). split.
    + cbn [NoteIterator.collect]. unfold NoteIterator.next at 1.
      cbn [chord state]. rewrite Hs. rewrite Hl. reflexivity.
    + simpl. rewrite Hml. reflexivity.
  - destruct (collect_structure c PITCH_CLASS_COUNT 0 fuel) as (l & Hl & Hml);
      [exact Hwf | reflexivity | unfold PITCH_CLASS_COUNT; lia |].
    exists l. split; [|exact Hml].
    rewrite <- Hl. apply collect_next_eq.
    unfold NoteIterator.next; cbn [chord state]. rewrite Hs. reflexivity.
Qed.

Lemma length_flat_map_slot_note (c : Chord) (l : list nat) :
  length (flat_map (slot_note c) l) <= length l.
Proof.
  induction l as [|i l IH]; simpl; [lia|].
  rewrite length_app.
  assert (length (slot_note c i) <= 1)
    by (unfold slot_note; destruct (slot_present c i); simpl; lia).
  lia.
Qed.

(** C2: [Chord::iter] is finite: with any budget of at least 12 calls of
    [next] it yields the slash note if present, then for each ordinal
    0..9 in ascending order whose slot holds an offset [o], the note
    [root.get_relative((degree, o))]; there are at most 1 + 10 notes. *)
Theorem chord_iter_sequence (c : Chord) (fuel : nat) :
  wf_structure (structure c) -> 12 <= fuel ->
  exists l, NoteIterator.collect fuel (Chord.iter c) = Some l /\
    map Some l =
      slash_notes c ++ flat_map (slot_note c) (seq 0 PITCH_CLASS_COUNT) /\
    length l <= 1 + PITCH_CLASS_COUNT.
Proof.
  intros Hwf Hf.
  destruct (chord_collect c fuel Hwf Hf) as (l & Hl & Hml).
  exists l. split; [exact Hl|]. split; [exact Hml|].
  rewrite <- (length_map Some l), Hml. unfold chord_notes_spec.
  rewrite length_app.
  pose proof (length_flat_map_slot_note c (seq 0 PITCH_CLASS_COUNT)) as H.
  rewrite length_seq in H.
  unfold slash_notes; destruct (slash_root c); simpl in *; lia.
Qed.

Lemma chord_iter_sequence_witness :
  (wf_structure (structure ex_slash) /\ 12 <= 12) /\
  exists l, NoteIterator.collect 12 (Chord.iter ex_slash) = Some l /\
    map Some l =
      slash_notes ex_slash ++
      flat_map (slot_note ex_slash) (seq 0 PITCH_CLASS_COUNT) /\
    length l <= 1 + PITCH_CLASS_COUNT.
Proof.
  split; [split; [reflexivity | lia]|].
  apply (chord_iter_sequence ex_slash 12); [reflexivity | lia].
Defined.

Lemma chain_collect_next_eq (fuel : nat) (ch1 ch2 : Chain) :
  Chain.next ch1 = Chain.next ch2 ->
  Chain.collect fuel ch1 = Chain.collect fuel ch2.
Proof. intros H. destruct fuel; simpl; [reflexivity|]. rewrite H. reflexivity. Qed.

Lemma chain_collect_mono (f f' : nat) (ch : Chain) (l : list Note) :
  Chain.collect f ch = Some l -> f <= f' -> Chain.collect f' ch = Some l.
Proof.
  revert f' ch l; induction f as [|f IH]; intros f' ch l H Hle;
    [discriminate|].
  destruct f' as [|f']; [lia|].
  cbn [Chain.collect] in *.
  destruct (Chain.next ch) as [[[n|] ch']|]; try exact H.
  destruct (Chain.collect f ch') as [l'|] eqn:Hl'; [|discriminate].
  rewrite (IH f' ch' l' Hl') by lia. exact H.
Qed.

(** Once the first iterator is dropped, the chain is the second one. *)
Lemma chain_collect_b (fuel : nat) (it : NoteIterator) (l : list Note) :
  NoteIterator.collect fuel it = Some l ->
  Chain.collect fuel (mkChain None (Some it)) = Some l.
Proof.
  revert it l; induction fuel as [|fuel IH]; intros it l H; [discriminate|].
  cbn [Chain.collect NoteIterator.collect] in *.
  unfold Chain.next; cbn [chain_a chain_b Chain.next_b].
  destruct (NoteIterator.next it) as [[[n|] it']|]; try exact H.
  destruct (NoteIterator.collect fuel it') as [l'|] eqn:Hl'; [|discriminate].
  rewrite (IH it' l' Hl'). exact H.
Qed.

Lemma chain_collect_a (fa fb : nat) (it : NoteIterator) (b : option NoteIterator)
    (la lb : list Note) :
  NoteIterator.collect fa it = Some la ->
  Chain.collect fb (mkChain None b) = Some lb ->
  Chain.collect (fa + fb) (mkChain (Some it) b) = Some (la ++ lb).
Proof.
  revert it la; induction fa as [|fa IH]; intros it la Ha Hb; [discriminate|].
  cbn [NoteIterator.collect] in Ha.
  destruct (NoteIterator.next it) as [[[n|] it']|] eqn:Hn; [| |discriminate].
  - destruct (NoteIterator.collect fa it') as [la'|] eqn:Hla'; [|discriminate].
    injection Ha as <-.
    cbn [Chain.collect Nat.add]. unfold Chain.next at 1; cbn [chain_a chain_b].
    rewrite Hn. rewrite (IH it' la' Hla' Hb). reflexivity.
  - injection Ha as <-. simpl app.
    rewrite (chain_collect_next_eq (S fa + fb) _ (mkChain None b)).
    + eapply chain_collect_mono; [exact Hb | lia].
    + unfold Chain.next; cbn [chain_a chain_b]. rewrite Hn. reflexivity.
Qed.

Lemma polychord_collect (p : PolyChord) (fuel : nat) :
  wf_structure (structure (lower p)) -> wf_structure (structure (upper p)) ->
  24 <= fuel ->
  exists l1 l2,
    NoteIterator.collect 12 (Chord.iter (lower p)) = Some l1 /\
    NoteIterator.collect 12 (Chord.iter (upper p)) = Some l2 /\
    Chain.collect fuel (PolyChord.iter p) = Some (l1 ++ l2).
Proof.
  intros Hlo Hup Hf.
  destruct (chord_collect (lower p) 12 Hlo ltac:(lia)) as (l1 & H1 & _).
  destruct (chord_collect (upper p) 12 Hup ltac:(lia)) as (l2 & H2 & _).
  exists l1, l2. split; [exact H1|]. split; [exact H2|].
  eapply chain_collect_mono; [|exact Hf].
  exact (chain_collect_a 12 12 _ _ l1 l2 H1 (chain_collect_b 12 _ l2 H2)).
Qed.

(** C8: [PolyChord::iter] yields the whole sequence of the lower chord
    followed by the whole sequence of the upper chord; on the example
    F#(#5) over Bm it yields [B, D, F#, F#, A#, C##]. *)
Theorem polychord_iter_concat (p : PolyChord) (fuel : nat) :
  wf_structure (structure (lower p)) -> wf_structure (structure (upper p)) ->
  24 <= fuel ->
  (exists l1 l2,
     NoteIterator.collect 12 (Chord.iter (lower p)) = Some l1 /\
     NoteIterator.collect 12 (Chord.iter (upper p)) = Some l2 /\
     Chain.collect fuel (PolyChord.iter p) = Some (l1 ++ l2)) /\
  Chain.collect fuel (PolyChord.iter ex_poly) =
    Some [Note.new B 0; Note.new D 0; Note.new F 1;
          Note.new F 1; Note.new A 1; Note.new C 2].
Proof.
  intros Hlo Hup Hf. split; [exact (polychord_collect p fuel Hlo Hup Hf)|].
  eapply chain_collect_mono; [|exact Hf]. reflexivity.
Qed.

Lemma polychord_iter_concat_witness :
  (wf_structure (structure (lower ex_poly)) /\
   wf_structure (structure (upper ex_poly)) /\ 24 <= 24) /\
  Chain.collect 24 (PolyChord.iter ex_poly) =
    Some [Note.new B 0; Note.new D 0; Note.new F 1;
          Note.new F 1; Note.new A 1; Note.new C 2].
Proof.
  split; [split; [reflexivity | split; [reflexivity | lia]]|].
  apply (polychord_iter_concat ex_poly 24); [reflexivity | reflexivity | lia].
Defined.

Lemma flat_map_slot_note_filter (c : Chord) (l : list nat) :
  flat_map (slot_note c) l =
  map (slot_resolve c) (List.filter (slot_present c) l).
Proof.
  induction l as [|i l IH]; simpl; [reflexivity|].
  unfold slot_note at 1. destruct (slot_present c i); simpl; rewrite IH;
    reflexivity.
Qed.

(** C4 (amended): the order of the yielded notes is structural, not by
    pitch: [Chord::iter] yields the slash note if present, then one note per
    present slot in ascending slot ordinal; [PolyChord::iter] yields the
    lower chord's sequence followed by the upper chord's. *)
Theorem iter_structural_order :
  (forall (c : Chord) (fuel : nat),
     wf_structure (structure c) -> 12 <= fuel ->
     exists l, NoteIterator.collect fuel (Chord.iter c) = Some l /\
       map Some l =
         slash_notes c ++
         map (slot_resolve c)
           (List.filter (slot_present c) (seq 0 PITCH_CLASS_COUNT))) /\
  (forall (p : PolyChord) (fuel : nat),
     wf_structure (structure (lower p)) ->
     wf_structure (structure (upper p)) -> 24 <= fuel ->
     exists l1 l2,
       NoteIterator.collect 12 (Chord.iter (lower p)) = Some l1 /\
       NoteIterator.collect 12 (Chord.iter (upper p)) = Some l2 /\
       Chain.collect fuel (PolyChord.iter p) = Some (l1 ++ l2)).
Proof.
  split.
  - intros c fuel Hwf Hf.
    destruct (chord_collect c fuel Hwf Hf) as (l & Hl & Hml).
    exists l. split; [exact Hl|].
    rewrite Hml. unfold chord_notes_spec.
    rewrite flat_map_slot_note_filter. reflexivity.
  - exact polychord_collect.
Qed.

Lemma iter_structural_order_witness :
  (wf_structure (structure ex_slash) /\ 12 <= 12) /\
  exists l, NoteIterator.collect 12 (Chord.iter ex_slash) = Some l /\
    map Some l =
      slash_notes ex_slash ++
      map (slot_resolve ex_slash)
        (List.filter (slot_present ex_slash) (seq 0 PITCH_CLASS_COUNT)).
Proof.
  split; [split; [reflexivity | lia]|].
  apply (proj1 iter_structural_order ex_slash 12); [reflexivity | lia].
Defined.

(** C(sharp 4, double-flat 5): unison, augmented fourth, doubly diminished
    fifth. *)
Definition ex_altered : Chord :=
  Chord.new (Note.new C 0)
    (ChordStructure.insert_many ChordStructure.new [(N4, 1%Z); (N5, (-2)%Z)]).

(** C4 counterexample: [ex_altered] yields [C, F#, Gbb]; [F#] (pitch 9)
    comes before the lower [Gbb] (pitch 8). *)
Lemma iter_not_pitch_sorted_counterexample :
  NoteIterator.collect 12 (Chord.iter ex_altered) =
    Some [Note.new C 0; Note.new F 1; Note.new G (-2)] /\
  (pitch (Note.new F 1) = 9 /\ pitch (Note.new G (-2)) = 8)%Z.
Proof. split; [reflexivity | split; reflexivity]. Qed.

Lemma get_relative_wrapping_witness :
  exists n, Note.get_relative (Note.new A 127) (N3, 0%Z) = Some n /\
    NoteClass.to_int (root n) = target_index (Note.new A 127) N3 /\
    offset n = wrap_i8 (relative_offset (Note.new A 127) N3 0 (root n)) /\
    (in_i8 (relative_offset (Note.new A 127) N3 0 (root n)) ->
     offset n = relative_offset (Note.new A 127) N3 0 (root n)).
Proof. exact (get_relative_wrapping (Note.new A 127) N3 0). Defined.

(** * Further properties of [chord.rs] *)

(** ** NoteClass and PitchClass conversions *)

(** X1: [NoteClass::from_int] inverts [to_int], accepts exactly the
    ordinals below [NOTE_CLASS_COUNT], and returns [None] from 7 on. *)
Theorem note_class_int_roundtrip :
  (forall n : NoteClass, NoteClass.from_int (NoteClass.to_int n) = Some n) /\
  (forall (i : nat) (n : NoteClass),
     NoteClass.from_int i = Some n -> NoteClass.to_int n = i) /\
  (forall i : nat, NoteClass.from_int i = None <-> NOTE_CLASS_COUNT <= i).
Proof.
  split; [|split].
  - intros []; reflexivity.
  - intros i n H.
    do 7 (destruct i as [|i]; [injection H as <-; reflexivity|]).
    discriminate.
  - intros i. unfold NOTE_CLASS_COUNT.
    do 7 (destruct i as [|i]; [split; [discriminate | lia]|]).
    split; [lia | reflexivity].
Qed.

Lemma note_class_int_roundtrip_witness :
  NoteClass.from_int 4 = Some E /\ NoteClass.to_int E = 4 /\
  (NoteClass.from_int 9 = None <-> NOTE_CLASS_COUNT <= 9).
Proof.
  split; [reflexivity|]. split.
  - apply (proj1 (proj2 note_class_int_roundtrip) 4 E). reflexivity.
  - apply (proj2 (proj2 note_class_int_roundtrip) 9).
Defined.

(** X2: [PitchClass::from_int] inverts [index], accepts exactly the
    indices below [PITCH_CLASS_COUNT], and returns [None] from 10 on. *)
Theorem pitch_class_index_roundtrip :
  (forall p : PitchClass, PitchClass.from_int (PitchClass.index p) = Some p) /\
  (forall (i : nat) (p : PitchClass),
     PitchClass.from_int i = Some p -> PitchClass.index p = i) /\
  (forall i : nat, PitchClass.from_int i = None <-> PITCH_CLASS_COUNT <= i).
Proof.
  split; [|split].
  - intros []; reflexivity.
  - intros i p H.
    do 10 (destruct i as [|i]; [injection H as <-; reflexivity|]).
    discriminate.
  - intros i. unfold PITCH_CLASS_COUNT.
    do 10 (destruct i as [|i]; [split; [discriminate | lia]|]).
    split; [lia | reflexivity].
Qed.

Lemma pitch_class_index_roundtrip_witness :
  PitchClass.from_int 8 = Some N11 /\ PitchClass.index N11 = 8 /\
  (PitchClass.from_int 10 = None <-> PITCH_CLASS_COUNT <= 10).
Proof.
  split; [reflexivity|]. split.
  - apply (proj1 (proj2 pitch_class_index_roundtrip) 8 N11). reflexivity.
  - apply (proj2 (proj2 pitch_class_index_roundtrip) 10).
Defined.

(** X3: [NoteClass::from_char] and [Display] are inverse: [from_char]
    accepts a character exactly when it is the one-letter display of a
    note class, and returns that class. *)
Theorem from_char_display (ch : ascii) (n : NoteClass) :
  NoteClass.from_char ch = Some n <-> NoteClass.fmt n = [ch].
Proof.
  split.
  - destruct ch as [[] [] [] [] [] [] [] []]; simpl; intros H;
      try discriminate; injection H as <-; reflexivity.
  - destruct n; simpl; intros H; injection H as <-; reflexivity.
Qed.

(** ** Note display *)

(** X4: for every offset other than -128, a note displays as its letter
    followed by [|offset|] accidentals, all ['#'] for a positive offset and
    all ['b'] for a negative one. *)
Theorem note_display_accidentals (n : Note) :
  in_i8 (offset n) -> offset n <> (-128)%Z ->
  Note.fmt n =
  NoteClass.fmt (root n) ++
  replicate (Z.abs_nat (offset n))
    (if Z.ltb 0 (offset n) then "#"%char else "b"%char).
Proof.
  intros Hin Hne. unfold Note.fmt, i8_abs.
  rewrite wrap_i8_id by (unfold in_i8 in *; lia).
  rewrite Zabs2Nat.abs_nat_spec. reflexivity.
Qed.

Lemma note_display_accidentals_witness :
  (in_i8 (-2)%Z /\ (-2)%Z <> (-128)%Z) /\
  Note.fmt (Note.new G (-2)) = ["G"%char; "b"%char; "b"%char].
Proof.
  split; [split; [unfold in_i8; lia | discriminate]|].
  rewrite (note_display_accidentals (Note.new G (-2)));
    [reflexivity | unfold in_i8; simpl; lia | discriminate].
Defined.

(** X5: a note with offset -128 displays as its bare letter:
    [(-128i8).abs()] wraps to -128 and the accidental loop runs zero
    times. *)
Theorem note_display_min_offset (x : NoteClass) :
  Note.fmt (mkNote x (-128)) = NoteClass.fmt x.
Proof.
  unfold Note.fmt. simpl. rewrite app_nil_r. reflexivity.
Qed.

(** ** NoteClass::difference *)

(** X6: [difference] measures steps around a 12-semitone circle: going
    from [x] to [y] and back is 0 semitones when [x = y] and 12 otherwise,
    and the differences [x -> y] and [y -> z] add up to [x -> z] modulo 12. *)
Theorem difference_circular (x y z : NoteClass) :
  NoteClass.difference x y + NoteClass.difference y x =
    (if decide (x = y) then 0 else 12) /\
  (NoteClass.difference x y + NoteClass.difference y z) mod 12 =
    NoteClass.difference x z.
Proof. destruct x, y, z; vm_compute; split; reflexivity. Qed.

Lemma from_char_display_witness :
  NoteClass.from_char "F"%char = Some F /\ NoteClass.fmt F = ["F"%char].
Proof.
  split; [reflexivity|].
  apply (proj1 (from_char_display "F"%char F)). reflexivity.
Defined.

(** ** Note::get_relative: spelling and accidentals *)

Lemma note_class_to_int_inj (x y : NoteClass) :
  NoteClass.to_int x = NoteClass.to_int y -> x = y.
Proof. destruct x, y; simpl; congruence. Qed.

(** X7: [get_relative] spells the interval from the natural root with no
    alteration and then adds the root's offset and the degree's explicit
    offset to the accidentals (in i8): the letter depends only on the
    root's letter and the degree. *)
Theorem get_relative_transpose (x : NoteClass) (o : Z) (d : PitchClass)
    (e : Z) :
  exists n0, Note.get_relative (mkNote x 0) (d, 0%Z) = Some n0 /\
    Note.get_relative (mkNote x o) (d, e) =
    Some (mkNote (root n0) (wrap_i8 (offset n0 + o + e))).
Proof.
  destruct (get_relative_eq (mkNote x 0) d 0) as (t0 & Ht0 & H0).
  destruct (get_relative_eq (mkNote x o) d e) as (t & Ht & H).
  assert (t = t0) as ->.
  { apply note_class_to_int_inj. rewrite Ht, Ht0. reflexivity. }
  eexists; split; [exact H0|]. rewrite H. simpl.
  rewrite <- Z.add_assoc, wrap_i8_add_l. unfold relative_offset; simpl.
  do 3 f_equal. lia.
Qed.

(** X8: a compound degree (9th, 11th, 13th) is spelled on the same letter
    as its simple degree (2nd, 4th, 6th), with 12 more sharps: the note is
    octave-free, so the extra octave lands in the accidentals. *)
Theorem get_relative_compound (r : Note) (e : Z) (s c : PitchClass) :
  (s, c) ∈ [(N2, N9); (N4, N11); (N6, N13)] ->
  exists n, Note.get_relative r (s, e) = Some n /\
    Note.get_relative r (c, e) = Some (mkNote (root n) (i8_add (offset n) 12)).
Proof.
  intros Hsc.
  assert (Hint : PitchClass.to_int s = PitchClass.to_int c /\
                 PitchClass.to_relative_difference c =
                 PitchClass.to_relative_difference s + 12).
  { repeat (rewrite elem_of_cons in Hsc; destruct Hsc as [Hsc|Hsc];
            [injection Hsc as -> ->; split; reflexivity|]).
    inversion Hsc. }
  destruct Hint as [Hti Htr].
  destruct (get_relative_eq r s e) as (t & Ht & Hs).
  destruct (get_relative_eq r c e) as (t' & Ht' & Hc).
  assert (t' = t) as ->.
  { apply note_class_to_int_inj. rewrite Ht, Ht'.
    unfold target_index. rewrite Hti. reflexivity. }
  eexists; split; [exact Hs|]. rewrite Hc. simpl.
  unfold i8_add. rewrite wrap_i8_add_l. unfold relative_offset.
  rewrite Htr. do 3 f_equal. lia.
Qed.

Lemma get_relative_compound_witness :
  (N2, N9) ∈ [(N2, N9); (N4, N11); (N6, N13)] /\
  Note.get_relative (Note.new A 0) (N2, 0%Z) = Some (Note.new B 0) /\
  Note.get_relative (Note.new A 0) (N9, 0%Z) = Some (Note.new B 12).
Proof.
  split; [left|].
  destruct (get_relative_compound (Note.new A 0) 0 N2 N9) as (n & H1 & H2);
    [left|].
  assert (Hn : Note.get_relative (Note.new A 0) (N2, 0%Z) = Some (Note.new B 0))
    by reflexivity.
  rewrite Hn in H1. injection H1 as <-.
  split; [exact Hn|]. rewrite H2. reflexivity.
Defined.

Lemma get_relative_unison (r : Note) :
  in_i8 (offset r) -> Note.get_relative r (N1, 0%Z) = Some r.
Proof.
  intros Hin.
  destruct (get_relative_eq r N1 0) as (t & Ht & H).
  assert (t = root r) as ->.
  { apply note_class_to_int_inj. rewrite Ht. unfold target_index.
    destruct (root r); reflexivity. }
  rewrite H. unfold relative_offset.
  replace (NoteClass.difference (root r) (root r)) with 0
    by (destruct (root r); reflexivity).
  simpl. rewrite wrap_i8_id by (unfold in_i8 in *; lia).
  destruct r; simpl. do 2 f_equal. lia.
Qed.

(** X9: a chord without slash note whose unison slot holds offset 0 (as in
    every structure from [ChordStructure::new]) yields its root note first. *)
Theorem chord_iter_root_first (r : Note) (s : ChordStructure) :
  wf_structure s -> slots s !! 0 = Some (Some 0%Z) -> in_i8 (offset r) ->
  exists l, NoteIterator.collect 12 (Chord.iter (Chord.new r s)) = Some (r :: l).
Proof.
  intros Hwf H0 Hin.
  destruct (chord_collect (Chord.new r s) 12 Hwf ltac:(lia)) as (l & Hl & Hml).
  assert (Hp : slot_present (Chord.new r s) 0 = true).
  { unfold slot_present. cbn [structure Chord.new]. rewrite H0. reflexivity. }
  assert (Hr : slot_resolve (Chord.new r s) 0 = Some r).
  { unfold slot_resolve. cbn [structure chord_root Chord.new]. rewrite H0.
    cbn [PitchClass.from_int]. exact (get_relative_unison r Hin). }
  unfold chord_notes_spec in Hml.
  change (seq 0 PITCH_CLASS_COUNT) with (0 :: seq 1 9) in Hml.
  cbn [slash_notes Chord.new slash_root flat_map app] in Hml.
  unfold slot_note at 1 in Hml. rewrite Hp, Hr in Hml.
  destruct l as [|n l]; simpl in Hml; [discriminate|].
  injection Hml as -> _. exists l. exact Hl.
Qed.

Lemma chord_iter_root_first_witness :
  (wf_structure ChordStructure.new /\
   slots ChordStructure.new !! 0 = Some (Some 0%Z) /\ in_i8 3%Z) /\
  exists l, NoteIterator.collect 12
              (Chord.iter (Chord.new (Note.new D 3) ChordStructure.new)) =
            Some (Note.new D 3 :: l).
Proof.
  split; [split; [reflexivity | split; [reflexivity | unfold in_i8; lia]]|].
  apply (chord_iter_root_first (Note.new D 3) ChordStructure.new);
    [reflexivity | reflexivity | unfold in_i8; simpl; lia].
Defined.

(** ** ChordStructure algebra *)

Lemma structure_ext (a b : ChordStructure) :
  (forall i, slots a !! i = slots b !! i) -> a = b.
Proof. destruct a, b; simpl; intros H. f_equal. apply list_eq, H. Qed.

Lemma length_merge (a b : ChordStructure) :
  length (slots (ChordStructure.merge a b)) = length (slots a).
Proof.
  unfold ChordStructure.merge. generalize (seq 0 PITCH_CLASS_COUNT) as l.
  intros l. revert a; induction l as [|j l IH]; intros a; simpl; [reflexivity|].
  rewrite IH. apply length_merge_step.
Qed.

Lemma merge_lookup (a b : ChordStructure) (i : nat) :
  wf_structure a -> wf_structure b ->
  slots (ChordStructure.merge a b) !! i =
  match slots b !! i with
  | Some (Some v) => Some (Some v)
  | _ => slots a !! i
  end.
Proof.
  unfold wf_structure. intros Ha Hb.
  destruct (decide (i < PITCH_CLASS_COUNT)) as [Hi|Hi].
  - unfold ChordStructure.merge.
    rewrite lookup_merge_fold by lia.
    rewrite decide_True; [reflexivity|]. apply elem_of_seq. lia.
  - rewrite (lookup_ge_None_2 (slots b) i) by lia.
    rewrite !lookup_ge_None_2; [reflexivity | lia |].
    rewrite length_merge. lia.
Qed.



(** X11: the derived [Default] structure (all slots absent) is a two-sided
    identity of [merge]. *)
Theorem merge_default_identity (a : ChordStructure) :
  wf_structure a ->
  ChordStructure.merge ChordStructure.default a = a /\
  ChordStructure.merge a ChordStructure.default = a.
Proof.
  intros Ha.
  assert (Hd : wf_structure ChordStructure.default) by reflexivity.
  split; apply structure_ext; intros i;
    rewrite merge_lookup by assumption.
  - destruct (slots a !! i) as [[v|]|] eqn:Hai; [reflexivity| |].
    + cbn [ChordStructure.default slots].
      rewrite lookup_replicate_2; [reflexivity|].
      unfold wf_structure in Ha. rewrite <- Ha. eapply lookup_lt_Some; eauto.
    + cbn [ChordStructure.default slots].
      apply lookup_ge_None_2. rewrite length_replicate.
      apply lookup_ge_None_1 in Hai. unfold wf_structure in Ha. lia.
  - cbn [ChordStructure.default slots].
    destruct (replicate PITCH_CLASS_COUNT None !! i) as [[v|]|] eqn:Hr;
      try reflexivity.
    apply lookup_replicate in Hr. destruct Hr as [Hr _]. discriminate.
Qed.

Lemma merge_default_identity_witness :
  wf_structure ChordStructure.new /\
  ChordStructure.merge ChordStructure.default ChordStructure.new =
    ChordStructure.new.
Proof.
  split; [reflexivity|].
  apply (merge_default_identity ChordStructure.new). reflexivity.
Defined.

(** X12: [merge] is associative on structures. *)
Theorem merge_assoc (a b c : ChordStructure) :
  wf_structure a -> wf_structure b -> wf_structure c ->
  ChordStructure.merge (ChordStructure.merge a b) c =
  ChordStructure.merge a (ChordStructure.merge b c).
Proof.
  intros Ha Hb Hc.
  assert (Hab : wf_structure (ChordStructure.merge a b))
    by (unfold wf_structure; rewrite length_merge; exact Ha).
  assert (Hbc : wf_structure (ChordStructure.merge b c))
    by (unfold wf_structure; rewrite length_merge; exact Hb).
  apply structure_ext; intros i.
  rewrite !merge_lookup by assumption.
  destruct (slots c !! i) as [[v|]|]; reflexivity.
Qed.

Lemma merge_assoc_witness :
  (wf_structure ChordStructure.new /\
   wf_structure (ChordStructure.from_component (N3, (-1)%Z)) /\
   wf_structure (ChordStructure.from_component (N3, 0%Z))) /\
  ChordStructure.merge
    (ChordStructure.merge ChordStructure.new
       (ChordStructure.from_component (N3, (-1)%Z)))
    (ChordStructure.from_component (N3, 0%Z)) =
  ChordStructure.merge ChordStructure.new
    (ChordStructure.merge (ChordStructure.from_component (N3, (-1)%Z))
       (ChordStructure.from_component (N3, 0%Z))).
Proof.
  split; [split; [reflexivity | split; reflexivity]|].
  apply merge_assoc; reflexivity.
Defined.

(** X13: merging is idempotent: merging a structure with itself, or
    merging the same structure in twice, changes nothing more. *)
Theorem merge_idempotent (a b : ChordStructure) :
  wf_structure a -> wf_structure b ->
  ChordStructure.merge a a = a /\
  ChordStructure.merge (ChordStructure.merge a b) b =
    ChordStructure.merge a b.
Proof.
  intros Ha Hb.
  assert (Hab : wf_structure (ChordStructure.merge a b))
    by (unfold wf_structure; rewrite length_merge; exact Ha).
  split; apply structure_ext; intros i; rewrite !merge_lookup by assumption.
  - destruct (slots a !! i) as [[v|]|]; reflexivity.
  - destruct (slots b !! i) as [[v|]|]; reflexivity.
Qed.

Lemma merge_idempotent_witness :
  (wf_structure ChordStructure.new /\
   wf_structure (ChordStructure.from_component (N5, 1%Z))) /\
  ChordStructure.merge ChordStructure.new ChordStructure.new =
    ChordStructure.new.
Proof.
  split; [split; reflexivity|].
  apply (proj1 (merge_idempotent ChordStructure.new
                  (ChordStructure.from_component (N5, 1%Z))
                  eq_refl eq_refl)).
Defined.

(** X14: inserting a component is merging in the structure that
    [from_component] builds from it. *)
Theorem insert_as_merge (s : ChordStructure) (c : ChordComponent) :
  wf_structure s ->
  ChordStructure.insert s c =
  ChordStructure.merge s (ChordStructure.from_component c).
Proof.
  intros Hs.
  assert (Hf : wf_structure (ChordStructure.from_component c))
    by (unfold wf_structure; simpl; rewrite length_insert; reflexivity).
  apply structure_ext; intros i. rewrite merge_lookup by assumption.
  destruct c as [d o]. unfold ChordStructure.insert, ChordStructure.from_component.
  simpl. unfold wf_structure in Hs.
  rewrite !list_lookup_insert.
  unfold ChordStructure.empty_classes. rewrite length_replicate, Hs.
  destruct (decide (PitchClass.index d = i /\ PitchClass.index d < PITCH_CLASS_COUNT))
    as [_|Hn]; [reflexivity|].
  destruct (replicate PITCH_CLASS_COUNT None !! i) as [[v|]|] eqn:Hr;
    try reflexivity.
  apply lookup_replicate in Hr. destruct Hr as [Hr _]. discriminate.
Qed.

Lemma insert_as_merge_witness :
  wf_structure ChordStructure.new /\
  ChordStructure.insert ChordStructure.new (N7, (-1)%Z) =
  ChordStructure.merge ChordStructure.new
    (ChordStructure.from_component (N7, (-1)%Z)).
Proof.
  split; [reflexivity|].
  apply insert_as_merge. reflexivity.
Defined.

Lemma insert_commute (s : ChordStructure) (d1 d2 : PitchClass) (o1 o2 : Z) :
  d1 <> d2 ->
  ChordStructure.insert (ChordStructure.insert s (d1, o1)) (d2, o2) =
  ChordStructure.insert (ChordStructure.insert s (d2, o2)) (d1, o1).
Proof.
  intros Hd. unfold ChordStructure.insert; simpl. f_equal.
  apply list_insert_insert_ne. intros Heq. apply Hd, index_inj. congruence.
Qed.

(** X15: when no degree occurs twice, the result of [insert_many] does not
    depend on the order of the components. *)
Theorem insert_many_permutation (s : ChordStructure)
    (l1 l2 : list ChordComponent) :
  NoDup (fst <$> l1) -> l1 ≡ₚ l2 ->
  ChordStructure.insert_many s l1 = ChordStructure.insert_many s l2.
Proof.
  intros Hnd Hp. revert s Hnd.
  induction Hp as [|x l l' Hp IH|y x l|l l' l'' H1 IH1 H2 IH2];
    intros s Hnd.
  - reflexivity.
  - change (ChordStructure.insert_many (ChordStructure.insert s x) l =
            ChordStructure.insert_many (ChordStructure.insert s x) l').
    apply IH. simpl in Hnd. exact (NoDup_cons_1_2 _ _ Hnd).
  - destruct x as [dx ox], y as [dy oy].
    simpl in Hnd. apply NoDup_cons_1_1 in Hnd.
    unfold ChordStructure.insert_many; cbn [foldl]. f_equal.
    cbn [slots fst snd]. f_equal.
    apply list_insert_insert_ne. intros Heq.
    apply index_inj in Heq. subst. apply Hnd. left.
  - rewrite (IH1 s Hnd). apply IH2.
    rewrite <- H1. exact Hnd.
Qed.

Lemma insert_many_permutation_witness :
  (NoDup (fst <$> [(N3, 0%Z); (N5, 1%Z)]) /\
   [(N3, 0%Z); (N5, 1%Z)] ≡ₚ [(N5, 1%Z); (N3, 0%Z)]) /\
  ChordStructure.insert_many ChordStructure.new [(N3, 0%Z); (N5, 1%Z)] =
  ChordStructure.insert_many ChordStructure.new [(N5, 1%Z); (N3, 0%Z)].
Proof.
  split; [split; [apply (bool_decide_unpack _); vm_compute; reflexivity | apply Permutation_swap]|].
  apply insert_many_permutation;
    [apply (bool_decide_unpack _); vm_compute; reflexivity | apply Permutation_swap].
Defined.

(** ** PitchClass::extended_intervals *)

(** X16: [extended_intervals p] lists, with offset 0, the degrees from the
    7th up to [p] in ascending slot order, and is empty for degrees below
    the 7th. *)
Theorem extended_intervals_shape (p : PitchClass) :
  (PitchClass.index ∘ fst) <$> PitchClass.extended_intervals p =
    seq 6 (S (PitchClass.index p) - 6) /\
  Forall (fun c : PitchClass * Z => c.2 = 0%Z)
    (PitchClass.extended_intervals p).
Proof. destruct p; split; repeat constructor. Qed.

(** X17: inserting [extended_intervals p] into a structure sets the slots
    from the 7th up to [p] to offset 0 and leaves every other slot as it
    was. *)
Theorem insert_extended_intervals (s : ChordStructure) (p : PitchClass)
    (i : nat) :
  wf_structure s ->
  slots (ChordStructure.insert_many s (PitchClass.extended_intervals p)) !! i =
  if decide (6 <= i <= PitchClass.index p) then Some (Some 0%Z)
  else slots s !! i.
Proof.
  unfold wf_structure, PITCH_CLASS_COUNT. intros Hs.
  destruct p;
    cbn [PitchClass.extended_intervals take PitchClass.CLASSES
         ChordStructure.insert_many foldl slots fst snd PitchClass.index];
    rewrite ?list_lookup_insert, ?length_insert, ?Hs;
    repeat case_decide; first [reflexivity | exfalso; lia].
Qed.

Lemma insert_extended_intervals_witness :
  wf_structure ChordStructure.new /\
  slots (ChordStructure.insert_many ChordStructure.new
           (PitchClass.extended_intervals N11)) !! 7 = Some (Some 0%Z).
Proof.
  split; [reflexivity|].
  rewrite (insert_extended_intervals ChordStructure.new N11 7); [|reflexivity].
  reflexivity.
Defined.

(** ** NoteIterator: exhaustion and counts *)

Lemma structure_loop_none (c : Chord) (k i : nat) (s : NoteIteratorState) :
  NoteIterator.structure_loop c k i = Some (None, s) -> s = Exhausted.
Proof.
  revert i; induction k as [|k IH]; intros i H;
    cbn [NoteIterator.structure_loop] in H.
  - congruence.
  - destruct (decide (i < PITCH_CLASS_COUNT)); [|congruence].
    destruct (slots (structure c) !! i) as [[off|]|]; [| apply (IH _ H) | discriminate].
    destruct (PitchClass.from_int i); [|discriminate].
    destruct (Note.get_relative (chord_root c) (p, off)); discriminate.
Qed.

(** X18: the note iterator is fused: once [next] has returned [None], every
    later call returns [None] again and leaves the iterator unchanged. *)
Theorem note_iterator_fused (it it' : NoteIterator) :
  NoteIterator.next it = Some (None, it') ->
  NoteIterator.next it' = Some (None, it').
Proof.
  destruct it as [c st]. unfold NoteIterator.next at 1; cbn [chord state].
  intros H.
  assert (Hs : exists s, it' = mkNoteIterator c s /\ s = Exhausted).
  { destruct st as [|ii|].
    - destruct (slash_root c); [discriminate|].
      unfold NoteIterator.structure_arm in H.
      destruct (NoteIterator.structure_loop c (PITCH_CLASS_COUNT - 0) 0)
        as [[o s]|] eqn:Hl; [|discriminate].
      injection H as -> <-. exists s. split; [reflexivity|].
      exact (structure_loop_none _ _ _ _ Hl).
    - unfold NoteIterator.structure_arm in H.
      destruct (NoteIterator.structure_loop c (PITCH_CLASS_COUNT - ii) ii)
        as [[o s]|] eqn:Hl; [|discriminate].
      injection H as -> <-. exists s. split; [reflexivity|].
      exact (structure_loop_none _ _ _ _ Hl).
    - injection H as <-. exists Exhausted. split; reflexivity. }
  destruct Hs as (s & -> & ->). reflexivity.
Qed.

Lemma note_iterator_fused_witness :
  NoteIterator.next (mkNoteIterator ex_slash (Structure 5)) =
    Some (None, mkNoteIterator ex_slash Exhausted) /\
  NoteIterator.next (mkNoteIterator ex_slash Exhausted) =
    Some (None, mkNoteIterator ex_slash Exhausted).
Proof.
  split; [reflexivity|].
  apply (note_iterator_fused (mkNoteIterator ex_slash (Structure 5))).
  reflexivity.
Defined.

Lemma map_Some_inj {T : Type} (l1 l2 : list T) :
  map Some l1 = map Some l2 -> l1 = l2.
Proof.
  revert l2; induction l1 as [|x l1 IH]; intros [|y l2] H; simpl in H;
    try discriminate; [reflexivity|].
  injection H as -> H. f_equal. apply IH, H.
Qed.

(** X19: a slash chord yields its slash note and then exactly the notes of
    the same chord without slash note. *)
Theorem slash_chord_prepends (x r : Note) (s : ChordStructure) :
  wf_structure s ->
  exists l,
    NoteIterator.collect 12 (Chord.iter (Chord.new r s)) = Some l /\
    NoteIterator.collect 12 (Chord.iter (Chord.new_slash x r s)) = Some (x :: l).
Proof.
  intros Hs.
  destruct (chord_collect (Chord.new r s) 12 Hs ltac:(lia)) as (l & Hl & Hml).
  destruct (chord_collect (Chord.new_slash x r s) 12 Hs ltac:(lia))
    as (l' & Hl' & Hml').
  exists l. split; [exact Hl|]. rewrite Hl'. f_equal.
  apply map_Some_inj. rewrite Hml'. simpl. f_equal. rewrite Hml. reflexivity.
Qed.

Lemma slash_chord_prepends_witness :
  wf_structure (ChordStructure.insert_many ChordStructure.new
                  [(N3, 0%Z); (N5, 0%Z)]) /\
  exists l,
    NoteIterator.collect 12 (Chord.iter (Chord.new (Note.new A 0)
      (ChordStructure.insert_many ChordStructure.new
         [(N3, 0%Z); (N5, 0%Z)]))) = Some l /\
    NoteIterator.collect 12 (Chord.iter ex_slash) = Some (Note.new C 1 :: l).
Proof.
  split; [reflexivity|].
  apply slash_chord_prepends. reflexivity.
Defined.

(** X20: a chord yields one note per present slot of its structure, plus
    one for the slash note when there is one. *)
Theorem chord_note_count (c : Chord) :
  wf_structure (structure c) ->
  exists l, NoteIterator.collect 12 (Chord.iter c) = Some l /\
    length l =
      (if slash_root c then 1 else 0) +
      length (List.filter (slot_present c) (seq 0 PITCH_CLASS_COUNT)).
Proof.
  intros Hs.
  destruct (chord_collect c 12 Hs ltac:(lia)) as (l & Hl & Hml).
  exists l. split; [exact Hl|].
  rewrite <- (length_map Some l), Hml. unfold chord_notes_spec.
  rewrite flat_map_slot_note_filter, length_app, length_map.
  unfold slash_notes. destruct (slash_root c); reflexivity.
Qed.

Lemma chord_note_count_witness :
  wf_structure (structure ex_altered) /\
  exists l, NoteIterator.collect 12 (Chord.iter ex_altered) = Some l /\
    length l = 3.
Proof.
  split; [reflexivity|].
  destruct (chord_note_count ex_altered) as (l & Hl & Hlen); [reflexivity|].
  exists l. split; [exact Hl | rewrite Hlen; reflexivity].
Defined.
